(** * deferral: scope-bound deferred execution (include/deferral.hh)

    A shallow embedding of the four triggering policies, of the guard
    [DeferBase<funcT, policyT>] and of its life cycle (construction, move
    construction, [release()], destruction), followed by the properties of
    the specification that are settled against it.

    Conventions.
    - [int] is modelled as [Z]; the only constants of the type the code uses
      are [std::numeric_limits<int>::max()] and [-1].
    - [std::uncaught_exceptions()] is a global of the host runtime.  The
      policy classes receive its value as an explicit argument; the guard
      reads it from the [world] it runs in.
    - A callable is a label of an arbitrary type [funcT]; calling it appends
      the label to the log [calls] of the world, and returns normally. *)

From Stdlib Require Import ZArith List Bool Lia String.
From ExtLib Require Import Structures.Monad Structures.MonadState.
From ExtLib Require Import Data.Monads.StateMonad.
Import ListNotations.
Import MonadNotation.

Set Implicit Arguments.

Local Open Scope Z_scope.
Local Open Scope monad_scope.

(** ** The type [int] *)

(** [std::numeric_limits<int>::max()], for the 32-bit [int] of the compilers
    the header is written for (GCC, Clang, MSVC). *)
Definition INT_MAX : Z := 2147483647.

(** What [std::uncaught_exceptions()] can return: a count, held in an [int]. *)
Definition uncaught_range (n : Z) : Prop := 0 <= n <= INT_MAX.

(** ** The policy classes *)

(** [class OnExitNoCheckPolicy]: no data member, both functions static. *)
Module OnExitNoCheckPolicy.

Inductive t : Type := mk.

Definition expect_execute : bool := true.
Definition require_noexcept : bool := false.

Definition ctor (uncaught : Z) : t := mk.
Definition release (this : t) : t := this.
Definition should_execute (this : t) (uncaught : Z) : bool := true.

End OnExitNoCheckPolicy.

(** [class OnExitPolicy]: [bool active{true}]. *)
Module OnExitPolicy.

Record t : Type := mk { active : bool }.

Definition expect_execute : bool := true.
Definition require_noexcept : bool := false.

Definition ctor (uncaught : Z) : t := {| active := true |}.
Definition release (this : t) : t := {| active := false |}.
Definition should_execute (this : t) (uncaught : Z) : bool := active this.

End OnExitPolicy.

(** [class OnFailPolicy]: [int exception_count{std::uncaught_exceptions()}]. *)
Module OnFailPolicy.

Record t : Type := mk { exception_count : Z }.

Definition expect_execute : bool := false.
Definition require_noexcept : bool := true.

Definition ctor (uncaught : Z) : t := {| exception_count := uncaught |}.
Definition release (this : t) : t := {| exception_count := INT_MAX |}.
Definition should_execute (this : t) (uncaught : Z) : bool :=
  exception_count this <? uncaught.

End OnFailPolicy.

(** [class OnSuccessPolicy]: [int exception_count{std::uncaught_exceptions()}]. *)
Module OnSuccessPolicy.

Record t : Type := mk { exception_count : Z }.

Definition expect_execute : bool := true.
Definition require_noexcept : bool := true.

Definition ctor (uncaught : Z) : t := {| exception_count := uncaught |}.
Definition release (this : t) : t := {| exception_count := -1 |}.
Definition should_execute (this : t) (uncaught : Z) : bool :=
  exception_count this >=? uncaught.

End OnSuccessPolicy.

(** What [DeferBase] requires of its template parameter [policyT]: the two
    static constants, default construction [policyT{}], [release()] and
    [should_execute()].  [uncaught] is what [std::uncaught_exceptions()]
    returns at the call; only [OnFailPolicy] and [OnSuccessPolicy] look at
    it. *)
Class Policy (policyT : Type) : Type := {
  expect_execute : bool;
  require_noexcept : bool;
  policy_ctor : forall (uncaught : Z), policyT;
  release : policyT -> policyT;
  should_execute : policyT -> forall (uncaught : Z), bool
}.

#[export] Instance Policy_OnExitNoCheck : Policy OnExitNoCheckPolicy.t := {
  expect_execute := OnExitNoCheckPolicy.expect_execute;
  require_noexcept := OnExitNoCheckPolicy.require_noexcept;
  policy_ctor := OnExitNoCheckPolicy.ctor;
  release := OnExitNoCheckPolicy.release;
  should_execute := OnExitNoCheckPolicy.should_execute
}.

#[export] Instance Policy_OnExit : Policy OnExitPolicy.t := {
  expect_execute := OnExitPolicy.expect_execute;
  require_noexcept := OnExitPolicy.require_noexcept;
  policy_ctor := OnExitPolicy.ctor;
  release := OnExitPolicy.release;
  should_execute := OnExitPolicy.should_execute
}.

#[export] Instance Policy_OnFail : Policy OnFailPolicy.t := {
  expect_execute := OnFailPolicy.expect_execute;
  require_noexcept := OnFailPolicy.require_noexcept;
  policy_ctor := OnFailPolicy.ctor;
  release := OnFailPolicy.release;
  should_execute := OnFailPolicy.should_execute
}.

#[export] Instance Policy_OnSuccess : Policy OnSuccessPolicy.t := {
  expect_execute := OnSuccessPolicy.expect_execute;
  require_noexcept := OnSuccessPolicy.require_noexcept;
  policy_ctor := OnSuccessPolicy.ctor;
  release := OnSuccessPolicy.release;
  should_execute := OnSuccessPolicy.should_execute
}.

(** The tag types of [namespace internal] that select a policy in
    [operator+]. *)
Inductive defer_tag : Type :=
| DeferOnExitNoCheck
| DeferOnExit
| DeferOnFail
| DeferOnSuccess.

Definition policy_of (d : defer_tag) : Type :=
  match d with
  | DeferOnExitNoCheck => OnExitNoCheckPolicy.t
  | DeferOnExit => OnExitPolicy.t
  | DeferOnFail => OnFailPolicy.t
  | DeferOnSuccess => OnSuccessPolicy.t
  end.

#[export] Instance Policy_of_tag (d : defer_tag) : Policy (policy_of d) :=
  match d with
  | DeferOnExitNoCheck => Policy_OnExitNoCheck
  | DeferOnExit => Policy_OnExit
  | DeferOnFail => Policy_OnFail
  | DeferOnSuccess => Policy_OnSuccess
  end.

(** A policy state that answers [should_execute] with false whatever the
    runtime counts. *)
Definition never_fires {policyT : Type} `{Policy policyT} (p : policyT)
  : Prop :=
  forall n : Z, uncaught_range n -> should_execute p n = false.

(** ** The world a guard runs in *)

(** The count [std::uncaught_exceptions()] returns, and the callables that
    were called so far, oldest first. *)
Record world (funcT : Type) : Type := mkWorld {
  uncaught_exceptions : Z;
  calls : list funcT
}.

Arguments mkWorld {funcT} _ _.

Definition world_ok {funcT : Type} (w : world funcT) : Prop :=
  uncaught_range (uncaught_exceptions w).

(** [__builtin_expect(exp, c)] evaluates to [exp]. *)
Definition builtin_expect (exp c : bool) : bool := exp.

(** ** [class DeferBase : policyT] *)

(** The base sub-object and the data member [func_t func].  Moving the
    callable out of a guard leaves the label where it was: the lambdas of the
    macros capture by reference, and a moved-from one does what the original
    did.  With a callable that its move empties (a [std::function]) a
    moved-from guard that still fires calls the emptied callable instead;
    only a guard of the no-check policy can be in that position. *)
Record DeferBase (funcT policyT : Type) : Type := mkDeferBase {
  base : policyT;
  func : funcT
}.

Section Guard.

Context {funcT : Type}.

#[local] Abbreviation M := (state (world funcT)).

(** [std::uncaught_exceptions()]. *)
Definition std_uncaught_exceptions : M Z :=
  gets (@uncaught_exceptions funcT).

(** [func()], for a callable that returns: the call is logged.  Callables
    that throw are the subject of [call_ex] below. *)
Definition call (f : funcT) : M unit :=
  w <- get ;;
  put (mkWorld (uncaught_exceptions w) (calls w ++ [f])).

(** [throw] leaves one more exception uncaught while the stack unwinds; the
    handler that catches it takes it off the count again. *)
Definition throw_exception : M unit :=
  w <- get ;;
  put (mkWorld (uncaught_exceptions w + 1) (calls w)).

Definition catch_exception : M unit :=
  w <- get ;;
  put (mkWorld (uncaught_exceptions w - 1) (calls w)).

Section Members.

Context {policyT : Type} `{Policy policyT}.

(** [explicit DeferBase(F&& f) : policyT{}, func{std::move_if_noexcept(f)} {}] *)
Definition DeferBase_ctor (f : funcT) : M (DeferBase funcT policyT) :=
  n <- std_uncaught_exceptions ;;
  ret {| base := policy_ctor n; func := f |}.

(** [using policy_t::release;] *)
Definition DeferBase_release (this : DeferBase funcT policyT)
  : M (DeferBase funcT policyT) :=
  ret {| base := release (base this); func := func this |}.

(** [DeferBase(DeferBase&& other)
      : policy_t{std::move(other)}, func{std::forward<func_t>(other.func)}
    { other.release(); }]
    The result is the new object and [other] as the constructor leaves it. *)
Definition DeferBase_move (other : DeferBase funcT policyT)
  : M (DeferBase funcT policyT * DeferBase funcT policyT) :=
  let this := {| base := base other; func := func other |} in
  other' <- DeferBase_release other ;;
  ret (this, other').

(** [~DeferBase() {
      if(__builtin_expect(policy_t::should_execute(), policy_t::expect_execute))
        { func(); } }] *)
Definition DeferBase_dtor (this : DeferBase funcT policyT) : M unit :=
  n <- std_uncaught_exceptions ;;
  if builtin_expect (should_execute (base this) n) expect_execute
  then call (func this)
  else ret tt.

End Members.

(** ** The public guards and their factories *)

(** [struct DeferExit : internal::DeferBase<funcT, internal::OnExitPolicy>]
    and its two siblings inherit the constructors of [DeferBase]. *)
Definition DeferExit : Type := DeferBase funcT OnExitPolicy.t.
Definition DeferFail : Type := DeferBase funcT OnFailPolicy.t.
Definition DeferSuccess : Type := DeferBase funcT OnSuccessPolicy.t.

(** [return DeferExit<funcT>{std::forward<funcT>(f)};] *)
Definition make_defer_exit (f : funcT) : M DeferExit :=
  DeferBase_ctor f.

Definition make_defer_fail (f : funcT) : M DeferFail :=
  DeferBase_ctor f.

Definition make_defer_success (f : funcT) : M DeferSuccess :=
  DeferBase_ctor f.

(** The four overloads of [operator+(tag, funcT&& f)]. *)
Definition operator_plus (d : defer_tag) (f : funcT)
  : M (DeferBase funcT (policy_of d)) :=
  match d with
  | DeferOnExitNoCheck => DeferBase_ctor (policyT := OnExitNoCheckPolicy.t) f
  | DeferOnExit => make_defer_exit f
  | DeferOnFail => make_defer_fail f
  | DeferOnSuccess => make_defer_success f
  end.

(** ** Block scopes *)

(** An object with automatic storage duration: a guard of some policy. *)
Inductive automatic : Type :=
| Automatic (policyT : Type) (P : Policy policyT) (g : DeferBase funcT policyT).

Arguments Automatic {policyT P} g.

(** The automatic objects of a block, the one declared last first. *)
Definition frame : Type := list automatic.

(** A declaration statement adds its object to the frame of the block. *)
Definition declare {policyT : Type} `{Policy policyT}
  (g : DeferBase funcT policyT) (fr : frame) : frame :=
  Automatic g :: fr.

Definition destroy (o : automatic) : M unit :=
  match o with
  | Automatic g => DeferBase_dtor g
  end.

(** Leaving the block, normally or by an exception, destroys its automatic
    objects in the reverse order of their construction. *)
Fixpoint leave (fr : frame) : M unit :=
  match fr with
  | [] => ret tt
  | o :: fr' => destroy o ;; leave fr'
  end.


(** ** What can happen to a guard between construction and destruction *)

Inductive event : Type :=
| Ev_release      (** [g.release()] *)
| Ev_moved_from   (** [g] is the argument of a move construction *)
| Ev_throw        (** an exception is thrown and starts to unwind *)
| Ev_catch.       (** a handler catches an exception *)

(** Events of the runtime, which leave the guard alone. *)
Definition world_event (e : event) : bool :=
  match e with
  | Ev_throw | Ev_catch => true
  | Ev_release | Ev_moved_from => false
  end.

Section Lifetime.

Context {policyT : Type} `{Policy policyT}.

Definition run_event (e : event) (g : DeferBase funcT policyT)
  : M (DeferBase funcT policyT) :=
  match e with
  | Ev_release => DeferBase_release g
  | Ev_moved_from => p <- DeferBase_move g ;; ret (snd p)
  | Ev_throw => throw_exception ;; ret g
  | Ev_catch => catch_exception ;; ret g
  end.

Fixpoint run_events (es : list event) (g : DeferBase funcT policyT)
  : M (DeferBase funcT policyT) :=
  match es with
  | [] => ret g
  | e :: es' => g' <- run_event e g ;; run_events es' g'
  end.

(** Construction, the events in their order, destruction. *)
Definition lifetime (f : funcT) (es : list event) : M unit :=
  g <- DeferBase_ctor f ;;
  g' <- run_events es g ;;
  DeferBase_dtor g'.

End Lifetime.

(** ** Chains of moves, and what a block is about to call *)

(** [auto g1 = std::move(g); auto g2 = std::move(g1); ...], [n] times: the
    last guard, and the frame with the moved-from ones declared on top of
    [fr], each in the state its move left it in. *)
Fixpoint move_chain {policyT : Type} `{Policy policyT} (n : nat)
  (g : DeferBase funcT policyT) (fr : frame)
  : M (DeferBase funcT policyT * frame) :=
  match n with
  | O => ret (g, fr)
  | S n' =>
      p <- DeferBase_move g ;;
      move_chain n' (fst p) (declare (snd p) fr)
  end.

(** By how much a sequence of events changes the count of uncaught
    exceptions. *)
Fixpoint net_throws (es : list event) : Z :=
  match es with
  | [] => 0
  | Ev_throw :: es' => 1 + net_throws es'
  | Ev_catch :: es' => net_throws es' - 1
  | _ :: es' => net_throws es'
  end.

(** What the destructor of an automatic object decides at the count [n], and
    the action it then calls. *)
Definition fires (n : Z) (o : automatic) : bool :=
  match o with
  | Automatic g => should_execute (base g) n
  end.

Definition action (o : automatic) : funcT :=
  match o with
  | Automatic g => func g
  end.

(** Events in which the guard is not the source of a move. *)
Definition not_moved_from (e : event) : bool :=
  match e with
  | Ev_moved_from => false
  | Ev_release | Ev_throw | Ev_catch => true
  end.

(** ** Actions that throw *)

(** How a call of a callable ends: it returns, or an exception leaves it.
    An exception can leave [func()] only if [func()] is not [noexcept], and
    then [~DeferBase()], which is [noexcept(noexcept(func()))], lets it
    through. *)
Inductive behaviour : Type :=
| Returns
| Throws.

(** How a block is left: normally, by an exception that propagates to the
    enclosing blocks, or not at all because [std::terminate] was called. *)
Inductive exit : Type :=
| Exit_normal
| Exit_exception
| Exit_terminate.

Section Throwing.

Variable behaves : funcT -> behaviour.

(** [func()], where the callable may throw: the call is logged, and an
    exception that leaves it is one more uncaught exception. *)
Definition call_ex (f : funcT) : M behaviour :=
  call f ;;
  match behaves f with
  | Returns => ret Returns
  | Throws => throw_exception ;; ret Throws
  end.

(** [~DeferBase()], with what leaves it. *)
Definition DeferBase_dtor_ex {policyT : Type} `{Policy policyT}
  (this : DeferBase funcT policyT) : M behaviour :=
  n <- std_uncaught_exceptions ;;
  if builtin_expect (should_execute (base this) n) expect_execute
  then call_ex (func this)
  else ret Returns.

Definition destroy_ex (o : automatic) : M behaviour :=
  match o with
  | Automatic g => DeferBase_dtor_ex g
  end.

(** Leaving a block whose destructors may throw.  [unwinding] says that the
    block is left by an exception.  An exception out of a destructor turns a
    normal exit into unwinding, through the objects that are left; out of a
    destructor that runs during unwinding it ends the program. *)
Fixpoint leave_ex (unwinding : bool) (fr : frame) : M exit :=
  match fr with
  | [] => ret (if unwinding then Exit_exception else Exit_normal)
  | o :: fr' =>
      b <- destroy_ex o ;;
      match b with
      | Returns => leave_ex unwinding fr'
      | Throws => if unwinding then ret Exit_terminate else leave_ex true fr'
      end
  end.

End Throwing.

End Guard.

Arguments Automatic {funcT policyT P} g.

(** ** The programs of tests/deferral_test.cc *)

Module Tests.

#[local] Abbreviation M := (state (world string)).

Definition w0 : world string := mkWorld 0 [].

(** [{ defer { x = 1; }; }] *)
Definition TestExit : M unit :=
  d <- operator_plus DeferOnExitNoCheck "x = 1"%string ;;
  leave (declare d []).

(** [try { defer { x = 1; }; throw 0; } catch(...) {}] *)
Definition TestExitThrow : M unit :=
  d <- operator_plus DeferOnExitNoCheck "x = 1"%string ;;
  throw_exception ;;
  leave (declare d []) ;;
  catch_exception.

(** [{ defer_(d) { x = 1; }; d.release(); }] *)
Definition TestExitRelease : M unit :=
  d <- operator_plus DeferOnExit "x = 1"%string ;;
  d <- DeferBase_release d ;;
  leave (declare d []).

(** [{ defer_success { x = 1; }; defer_fail { y = 1; }; }] *)
Definition TestSuccessFail : M unit :=
  s <- operator_plus DeferOnSuccess "x = 1"%string ;;
  f <- operator_plus DeferOnFail "y = 1"%string ;;
  leave (declare f (declare s [])).

(** [try { defer_success { x = 1; }; defer_fail { y = 1; }; throw 0; }
    catch(...) {}] *)
Definition TestSuccessFailThrow : M unit :=
  s <- operator_plus DeferOnSuccess "x = 1"%string ;;
  f <- operator_plus DeferOnFail "y = 1"%string ;;
  throw_exception ;;
  leave (declare f (declare s [])) ;;
  catch_exception.

(** [{ defer_success_(d) { x = 1; }; defer_fail_(e) { y = 1; };
      d.release(); e.release(); }] *)
Definition TestSuccessFailRelease : M unit :=
  d <- operator_plus DeferOnSuccess "x = 1"%string ;;
  e <- operator_plus DeferOnFail "y = 1"%string ;;
  d <- DeferBase_release d ;;
  e <- DeferBase_release e ;;
  leave (declare e (declare d [])).

(** [{ auto d = DeferExit{..x..}; auto f = DeferFail{..y..};
      auto s = DeferSuccess{..z..}; }] *)
Definition TestTypeDeductionGuides : M unit :=
  d <- make_defer_exit "x = 1"%string ;;
  f <- make_defer_fail "y = 1"%string ;;
  s <- make_defer_success "z = 1"%string ;;
  leave (declare s (declare f (declare d []))).

(** [try { auto d = DeferExit{..x..}; auto f = DeferFail{..y..};
          auto s = DeferSuccess{..z..}; throw 0; } catch(...) {}] *)
Definition TestTypeDeductionGuidesWithThrow : M unit :=
  d <- make_defer_exit "x = 1"%string ;;
  f <- make_defer_fail "y = 1"%string ;;
  s <- make_defer_success "z = 1"%string ;;
  throw_exception ;;
  leave (declare s (declare f (declare d []))) ;;
  catch_exception.

End Tests.

Example TestExit_run :
  execState Tests.TestExit Tests.w0 = mkWorld 0 ["x = 1"%string].
Proof. reflexivity. Qed.

Example TestExitThrow_run :
  execState Tests.TestExitThrow Tests.w0 = mkWorld 0 ["x = 1"%string].
Proof. reflexivity. Qed.

Example TestExitRelease_run :
  execState Tests.TestExitRelease Tests.w0 = mkWorld 0 [].
Proof. reflexivity. Qed.

Example TestSuccessFail_run :
  execState Tests.TestSuccessFail Tests.w0 = mkWorld 0 ["x = 1"%string].
Proof. reflexivity. Qed.

Example TestSuccessFailThrow_run :
  execState Tests.TestSuccessFailThrow Tests.w0 = mkWorld 0 ["y = 1"%string].
Proof. reflexivity. Qed.

Example TestSuccessFailRelease_run :
  execState Tests.TestSuccessFailRelease Tests.w0 = mkWorld 0 [].
Proof. reflexivity. Qed.

Example TestTypeDeductionGuides_run :
  execState Tests.TestTypeDeductionGuides Tests.w0
  = mkWorld 0 ["z = 1"%string; "x = 1"%string].
Proof. reflexivity. Qed.

Example TestTypeDeductionGuidesWithThrow_run :
  execState Tests.TestTypeDeductionGuidesWithThrow Tests.w0
  = mkWorld 0 ["y = 1"%string; "x = 1"%string].
Proof. reflexivity. Qed.

(** * Properties *)

(** ** Running a sequence *)

Section Bind.

Context {S A B : Type}.

Lemma runState_bind (c : state S A) (k : A -> state S B) (s : S) :
  runState (bind c k) s
  = runState (k (evalState c s)) (execState c s).
Proof.
  unfold evalState, execState. cbn. destruct (runState c s); reflexivity.
Qed.

Lemma execState_bind (c : state S A) (k : A -> state S B) (s : S) :
  execState (bind c k) s = execState (k (evalState c s)) (execState c s).
Proof. unfold execState at 1 2. now rewrite runState_bind. Qed.


End Bind.

(** ** How the members run *)

Section Run.

Context {funcT policyT : Type} `{Policy policyT}.

Implicit Types (g : DeferBase funcT policyT) (w : world funcT).

Lemma DeferBase_ctor_run (f : funcT) w :
  runState (DeferBase_ctor f) w
  = ({| base := policy_ctor (uncaught_exceptions w); func := f |}, w).
Proof. reflexivity. Qed.

Lemma DeferBase_release_run g w :
  runState (DeferBase_release g) w
  = ({| base := release (base g); func := func g |}, w).
Proof. reflexivity. Qed.

Lemma DeferBase_move_run g w :
  runState (DeferBase_move g) w
  = (({| base := base g; func := func g |},
      {| base := release (base g); func := func g |}), w).
Proof. reflexivity. Qed.

Lemma DeferBase_dtor_run g w :
  runState (DeferBase_dtor g) w
  = (tt, if should_execute (base g) (uncaught_exceptions w)
         then mkWorld (uncaught_exceptions w) (calls w ++ [func g])
         else w).
Proof.
  unfold DeferBase_dtor, builtin_expect. cbn.
  destruct (should_execute (base g) (uncaught_exceptions w)); reflexivity.
Qed.

Lemma DeferBase_dtor_fires g w :
  should_execute (base g) (uncaught_exceptions w) = true ->
  execState (DeferBase_dtor g) w
  = mkWorld (uncaught_exceptions w) (calls w ++ [func g]).
Proof.
  intros E. unfold execState. rewrite DeferBase_dtor_run, E. reflexivity.
Qed.

Lemma DeferBase_dtor_skips g w :
  should_execute (base g) (uncaught_exceptions w) = false ->
  execState (DeferBase_dtor g) w = w.
Proof.
  intros E. unfold execState. rewrite DeferBase_dtor_run, E. reflexivity.
Qed.

End Run.

(** ** The events of a lifetime *)

Section Events.

Context {funcT policyT : Type} `{Policy policyT}.

Implicit Types (g : DeferBase funcT policyT) (w : world funcT).

Lemma run_event_calls e g w :
  calls (execState (run_event e g) w) = calls w.
Proof. destruct e; reflexivity. Qed.

Lemma run_event_func e g w :
  func (evalState (run_event e g) w) = func g.
Proof. destruct e; reflexivity. Qed.

Lemma run_events_cons e es g w :
  runState (run_events (e :: es) g) w
  = runState (run_events es (evalState (run_event e g) w))
             (execState (run_event e g) w).
Proof.
  unfold evalState, execState. cbn.
  destruct (runState (run_event e g) w); reflexivity.
Qed.

Lemma run_events_calls es g w :
  calls (execState (run_events es g) w) = calls w.
Proof.
  revert g w. induction es as [|e es IH]; intros g w; [reflexivity|].
  unfold execState. rewrite run_events_cons.
  fold (execState (run_events es (evalState (run_event e g) w))
                  (execState (run_event e g) w)).
  rewrite IH. apply run_event_calls.
Qed.

Lemma run_events_func es g w :
  func (evalState (run_events es g) w) = func g.
Proof.
  revert g w. induction es as [|e es IH]; intros g w; [reflexivity|].
  unfold evalState. rewrite run_events_cons.
  fold (evalState (run_events es (evalState (run_event e g) w))
                  (execState (run_event e g) w)).
  rewrite IH. apply run_event_func.
Qed.

Lemma run_events_world_only es g w :
  forallb world_event es = true ->
  evalState (run_events es g) w = g.
Proof.
  revert g w. induction es as [|e es IH]; intros g w Hes; [reflexivity|].
  cbn in Hes. apply andb_true_iff in Hes as [He Hes].
  unfold evalState. rewrite run_events_cons.
  fold (evalState (run_events es (evalState (run_event e g) w))
                  (execState (run_event e g) w)).
  rewrite (IH _ _ Hes). destruct e; try discriminate; reflexivity.
Qed.

Lemma lifetime_run (f : funcT) es w :
  let g := evalState (DeferBase_ctor f) w in
  execState (lifetime f es) w
  = execState (DeferBase_dtor (evalState (run_events es g) w))
              (execState (run_events es g) w).
Proof.
  unfold lifetime, evalState, execState. cbn.
  destruct (runState (run_events es _) w) as [g' w']. reflexivity.
Qed.

End Events.

(** ** Leaving a block *)

Section Frames.

Context {funcT : Type}.

Lemma leave_nil (w : world funcT) : execState (leave []) w = w.
Proof. reflexivity. Qed.

Lemma leave_declare {policyT : Type} `{Policy policyT}
  (g : DeferBase funcT policyT) (fr : frame) (w : world funcT) :
  execState (leave (declare g fr)) w
  = execState (leave fr) (execState (DeferBase_dtor g) w).
Proof.
  unfold declare.
  change (leave (Automatic g :: fr))
    with (bind (DeferBase_dtor g) (fun _ : unit => leave fr)).
  apply execState_bind.
Qed.

End Frames.

(** ** Failure detection: [OnFail] and [OnSuccess] *)

Section Detector.

Context {funcT : Type}.

Implicit Types (f : funcT) (w : world funcT).

(** C1. An [OnFail] guard constructed in [w0] holds the count of [w0] as its
    baseline, and at destruction in [w1] its [should_execute] is true exactly
    when the count of [w1] is strictly greater; for an [OnSuccess] guard it is
    true exactly when the count of [w1] is less than or equal to the
    baseline.  The destructors call the action accordingly. *)
Theorem C1_should_execute_against_baseline f w0 w1 :
  let gf := evalState (make_defer_fail f) w0 in
  let gs := evalState (make_defer_success f) w0 in
  let baseline := uncaught_exceptions w0 in
  let current := uncaught_exceptions w1 in
  OnFailPolicy.exception_count (base gf) = baseline /\
  OnSuccessPolicy.exception_count (base gs) = baseline /\
  (OnFailPolicy.should_execute (base gf) current = true
   <-> current > baseline) /\
  (OnSuccessPolicy.should_execute (base gs) current = true
   <-> current <= baseline) /\
  execState (DeferBase_dtor gf) w1
  = (if baseline <? current then mkWorld current (calls w1 ++ [f]) else w1) /\
  execState (DeferBase_dtor gs) w1
  = (if current <=? baseline then mkWorld current (calls w1 ++ [f]) else w1).
Proof.
  cbn zeta. unfold execState.
  rewrite !DeferBase_dtor_run. cbn.
  unfold OnFailPolicy.should_execute, OnSuccessPolicy.should_execute. cbn.
  rewrite Z.geb_leb.
  repeat split; try (rewrite Z.ltb_lt; lia); try (rewrite Z.leb_le; lia).
Qed.

(** C2. An [OnFail] and an [OnSuccess] guard constructed at the same moment
    answer [should_execute] with opposite booleans whatever the count is at
    destruction, so that destroying the two calls exactly one action: the one
    of the [OnFail] guard when the count has grown, the one of the
    [OnSuccess] guard otherwise. *)
Theorem C2_fail_success_exclusive (ff fs : funcT) w0 w1 :
  let gs := evalState (make_defer_success fs) w0 in
  let gf := evalState (make_defer_fail ff) w0 in
  let current := uncaught_exceptions w1 in
  OnFailPolicy.should_execute (base gf) current
  = negb (OnSuccessPolicy.should_execute (base gs) current) /\
  calls (execState (leave (declare gf (declare gs []))) w1)
  = calls w1 ++ [if OnFailPolicy.should_execute (base gf) current
                 then ff else fs].
Proof.
  cbn zeta. split.
  - cbn. unfold OnFailPolicy.should_execute, OnSuccessPolicy.should_execute.
    cbn. rewrite Z.geb_leb. apply Z.ltb_antisym.
  - rewrite !leave_declare, leave_nil.
    unfold execState. rewrite !DeferBase_dtor_run. cbn.
    unfold OnFailPolicy.should_execute, OnSuccessPolicy.should_execute. cbn.
    destruct (Z.ltb_spec (uncaught_exceptions w0) (uncaught_exceptions w1));
      cbn; rewrite Z.geb_leb;
      destruct (Z.leb_spec (uncaught_exceptions w1) (uncaught_exceptions w0));
      try lia; reflexivity.
Qed.

(** C6. A guard constructed while exceptions are already unwinding takes the
    count of that moment as its baseline, not zero.  Its [OnFail] action is
    called only if the count at destruction exceeds that baseline; when the
    count at destruction equals it, [OnFail] stays silent and [OnSuccess]
    calls its action. *)
Theorem C6_nested_baseline f w0 w1 :
  uncaught_exceptions w0 <> 0 ->
  let gf := evalState (make_defer_fail f) w0 in
  let gs := evalState (make_defer_success f) w0 in
  (OnFailPolicy.exception_count (base gf) = uncaught_exceptions w0 /\
   OnFailPolicy.exception_count (base gf) <> 0) /\
  (OnSuccessPolicy.exception_count (base gs) = uncaught_exceptions w0 /\
   OnSuccessPolicy.exception_count (base gs) <> 0) /\
  (execState (DeferBase_dtor gf) w1 <> w1 ->
   uncaught_exceptions w0 < uncaught_exceptions w1) /\
  (uncaught_exceptions w1 = uncaught_exceptions w0 ->
   OnFailPolicy.should_execute (base gf) (uncaught_exceptions w1) = false /\
   OnSuccessPolicy.should_execute (base gs) (uncaught_exceptions w1) = true /\
   execState (DeferBase_dtor gf) w1 = w1 /\
   execState (DeferBase_dtor gs) w1
   = mkWorld (uncaught_exceptions w1) (calls w1 ++ [f])).
Proof.
  intros Hn. cbn zeta. unfold execState.
  rewrite !DeferBase_dtor_run. cbn.
  unfold OnFailPolicy.should_execute, OnSuccessPolicy.should_execute. cbn.
  rewrite Z.geb_leb.
  repeat split; try assumption.
  - destruct (Z.ltb_spec (uncaught_exceptions w0) (uncaught_exceptions w1));
      [trivial | congruence].
  - rewrite H. apply Z.ltb_irrefl.
  - rewrite H. apply Z.leb_refl.
  - rewrite H, Z.ltb_irrefl. reflexivity.
  - rewrite H, Z.leb_refl. reflexivity.
Qed.

End Detector.

Lemma C6_nested_baseline_witness :
  let w := mkWorld 2 ["logged"%string] in
  uncaught_exceptions w <> 0 /\
  execState (DeferBase_dtor (evalState (make_defer_fail "undo"%string) w)) w
  = w /\
  execState (DeferBase_dtor (evalState (make_defer_success "commit"%string) w)) w
  = mkWorld 2 ["logged"%string; "commit"%string].
Proof.
  cbn zeta.
  assert (Hn : uncaught_exceptions (mkWorld 2 ["logged"%string]) <> 0)
    by (cbn; lia).
  split; [exact Hn|].
  split.
  - destruct (C6_nested_baseline "undo"%string (mkWorld 2 ["logged"%string])
                (mkWorld 2 ["logged"%string]) Hn) as (_ & _ & _ & Heq).
    destruct (Heq eq_refl) as (_ & _ & Hfail & _). exact Hfail.
  - destruct (C6_nested_baseline "commit"%string (mkWorld 2 ["logged"%string])
                (mkWorld 2 ["logged"%string]) Hn) as (_ & _ & _ & Heq).
    destruct (Heq eq_refl) as (_ & _ & _ & Hsucc). exact Hsucc.
Defined.

(** ** [OnExit]: firing, and the order of firing *)

Section Exit.

Context {funcT : Type}.

Implicit Types (f : funcT) (w : world funcT).

(** C5. An [OnExit] guard that is neither released nor moved from calls its
    action exactly once when it is destroyed, whatever the count of uncaught
    exceptions is at that moment: over its whole lifetime, with any throws
    and catches in between, the log grows by that one call; so it does when
    the block is left normally and when it is left by a throw. *)
Theorem C5_exit_fires_exactly_once f (es : list event) w :
  forallb world_event es = true ->
  (forall w1,
     execState (DeferBase_dtor (evalState (make_defer_exit f) w)) w1
     = mkWorld (uncaught_exceptions w1) (calls w1 ++ [f])) /\
  calls (execState (lifetime (policyT := OnExitPolicy.t) f es) w)
  = calls w ++ [f] /\
  execState (g <- make_defer_exit f ;; leave (declare g [])) w
  = mkWorld (uncaught_exceptions w) (calls w ++ [f]) /\
  execState (g <- make_defer_exit f ;; throw_exception ;;
             leave (declare g [])) w
  = mkWorld (uncaught_exceptions w + 1) (calls w ++ [f]).
Proof.
  intros Hes. split; [|split; [|split]].
  - intros w1. now apply DeferBase_dtor_fires.
  - rewrite lifetime_run. cbn zeta.
    rewrite (run_events_world_only _ _ _ Hes).
    rewrite DeferBase_dtor_fires by reflexivity.
    cbn [calls]. now rewrite run_events_calls.
  - reflexivity.
  - reflexivity.
Qed.


(** C7. Two armed [OnExit] guards declared in the order A, B in one block:
    when the block is left, normally or by a throw, the action of B is
    called first and the action of A after it. *)
Theorem C7_reverse_order_firing (fa fb : funcT) w :
  execState (a <- make_defer_exit fa ;;
             b <- make_defer_exit fb ;;
             leave (declare b (declare a []))) w
  = mkWorld (uncaught_exceptions w) (calls w ++ [fb; fa]) /\
  execState (a <- make_defer_exit fa ;;
             b <- make_defer_exit fb ;;
             throw_exception ;;
             leave (declare b (declare a []))) w
  = mkWorld (uncaught_exceptions w + 1) (calls w ++ [fb; fa]).
Proof.
  split; unfold execState; cbn; rewrite <- app_assoc; reflexivity.
Qed.

End Exit.

Lemma C5_exit_fires_exactly_once_witness :
  forallb world_event [Ev_throw; Ev_catch; Ev_throw] = true /\
  calls (execState (lifetime (policyT := OnExitPolicy.t) "x = 1"%string
                      [Ev_throw; Ev_catch; Ev_throw]) (mkWorld 0 []))
  = ["x = 1"%string].
Proof.
  split; [reflexivity|].
  exact (proj1 (proj2 (C5_exit_fires_exactly_once "x = 1"%string
                         [Ev_throw; Ev_catch; Ev_throw] (mkWorld 0 [])
                         eq_refl))).
Defined.

(** ** Capture and transfer *)

Section Capture.

Context {funcT policyT : Type} `{Policy policyT}.

(** C8. Neither the constructor from an action nor the move constructor calls
    the action: for every policy, both leave the world, and so the log of
    calls, as they found it.  The factories and [operator+] only construct. *)
Theorem C8_construction_never_calls
  (f : funcT) (other : DeferBase funcT policyT) (d : defer_tag)
  (w : world funcT) :
  calls (execState (DeferBase_ctor (policyT := policyT) f) w) = calls w /\
  calls (execState (DeferBase_move other) w) = calls w /\
  execState (DeferBase_ctor (policyT := policyT) f) w = w /\
  execState (DeferBase_move other) w = w /\
  execState (operator_plus d f) w = w.
Proof.
  unfold execState.
  rewrite DeferBase_ctor_run, DeferBase_move_run.
  repeat split. destruct d; reflexivity.
Qed.

End Capture.

(** ** [release()] *)

Section Release.

Context {funcT : Type}.

(** Each of the four [release()] overwrites the state with a constant, or
    leaves it alone. *)
Lemma release_release (d : defer_tag) (p : policy_of d) :
  release (release p) = release p.
Proof. destruct d; reflexivity. Qed.

Lemma iter_release (d : defer_tag) (p : policy_of d) (n : nat) :
  Nat.iter (S n) release p = release p.
Proof.
  induction n as [|n IH]; [reflexivity|].
  change (Nat.iter (S (S n)) release p)
    with (release (Nat.iter (S n) release p)).
  rewrite IH. apply release_release.
Qed.

(** C9. For every policy, [release()] is idempotent: a second call, or any
    number of further calls, leaves the guard in the state the first call
    left it in.  The call always returns, and it has no effect on the world:
    nothing is called and the count of uncaught exceptions is not touched. *)
Theorem C9_release_idempotent
  (d : defer_tag) (g : DeferBase funcT (policy_of d)) (n : nat)
  (w : world funcT) :
  release (release (base g)) = release (base g) /\
  Nat.iter (S n) release (base g) = release (base g) /\
  runState (g1 <- DeferBase_release g ;; DeferBase_release g1) w
  = runState (DeferBase_release g) w /\
  execState (DeferBase_release g) w = w.
Proof.
  split; [apply release_release|].
  split; [apply iter_release|].
  split; [|reflexivity].
  rewrite runState_bind. unfold evalState, execState.
  rewrite !DeferBase_release_run. cbn [fst snd base func].
  now rewrite release_release.
Qed.

End Release.

(** ** Disarmed guards *)

Section Disarm.

Context {funcT : Type}.

(** [active = false], [exception_count = INT_MAX] and [exception_count = -1]
    disarm; the empty [release()] of [OnExitNoCheckPolicy] does not. *)
Lemma release_never_fires (d : defer_tag) (p : policy_of d) :
  d <> DeferOnExitNoCheck -> never_fires (release p).
Proof.
  intros Hd n [Hlo Hhi]. destruct d; cbn.
  - congruence.
  - reflexivity.
  - unfold OnFailPolicy.should_execute. cbn. apply Z.ltb_ge. exact Hhi.
  - unfold OnSuccessPolicy.should_execute. cbn. rewrite Z.geb_leb.
    apply Z.leb_gt. lia.
Qed.

Lemma release_no_check_fires (p : OnExitNoCheckPolicy.t) (n : Z) :
  should_execute (release p) n = true.
Proof. reflexivity. Qed.

Section AnyPolicy.

Context {policyT : Type} `{Policy policyT}.

Implicit Types (g : DeferBase funcT policyT) (w : world funcT).

Lemma run_events_app es1 es2 g w :
  runState (run_events (es1 ++ es2) g) w
  = runState (run_events es2 (evalState (run_events es1 g) w))
             (execState (run_events es1 g) w).
Proof.
  revert g w. induction es1 as [|e es1 IH]; intros g w; [reflexivity|].
  rewrite <- app_comm_cons, run_events_cons, IH.
  unfold evalState, execState. now rewrite run_events_cons.
Qed.

(** Once the state is one that [release()] leaves alone, no event changes
    it any more. *)
Lemma run_events_released es g w :
  release (base g) = base g ->
  base (evalState (run_events es g) w) = base g.
Proof.
  revert g w. induction es as [|e es IH]; intros g w Hg; [reflexivity|].
  unfold evalState. rewrite run_events_cons.
  fold (evalState (run_events es (evalState (run_event e g) w))
                  (execState (run_event e g) w)).
  assert (He : base (evalState (run_event e g) w) = base g)
    by (destruct e; cbn; congruence).
  rewrite IH; rewrite He; congruence.
Qed.

End AnyPolicy.

(** A lifetime in which [release()] is called ends in the state that call
    left. *)
Lemma run_events_with_release (d : defer_tag)
  (g : DeferBase funcT (policy_of d)) (before after : list event)
  (w : world funcT) :
  exists p : policy_of d,
    base (evalState (run_events (before ++ Ev_release :: after) g) w)
    = release p.
Proof.
  exists (base (evalState (run_events before g) w)).
  unfold evalState at 1. rewrite run_events_app, run_events_cons.
  fold (evalState (run_events after
          (evalState (run_event Ev_release
             (evalState (run_events before g) w))
             (execState (run_events before g) w)))
          (execState (run_event Ev_release
             (evalState (run_events before g) w))
             (execState (run_events before g) w))).
  rewrite run_events_released; cbn; [reflexivity|].
  apply release_release.
Qed.

End Disarm.

(** ** Release and move over a lifetime *)

Section Obligation.

Context {funcT : Type}.

Implicit Types (f : funcT) (w : world funcT).

(** C3, as the code has it.  For a guard of the [OnExit], [OnFail] or
    [OnSuccess] policy: if [release()] is called at any point of its lifetime,
    whatever happens before and after it, the destructor does not call the
    action, whether the count of uncaught exceptions at that moment says
    normal exit or unwinding.  For the no-check policy [release()] does
    nothing and the destructor calls the action all the same. *)
Theorem C3_release_suppresses_unless_no_check
  (d : defer_tag) f (before after : list event) w :
  world_ok
    (execState
       (g <- DeferBase_ctor (policyT := policy_of d) f ;;
        run_events (before ++ Ev_release :: after) g) w) ->
  (d <> DeferOnExitNoCheck ->
   calls (execState (lifetime (policyT := policy_of d) f
                       (before ++ Ev_release :: after)) w)
   = calls w) /\
  (d = DeferOnExitNoCheck ->
   calls (execState (lifetime (policyT := policy_of d) f
                       (before ++ Ev_release :: after)) w)
   = calls w ++ [f]).
Proof.
  intros Hok. rewrite execState_bind in Hok.
  rewrite lifetime_run. cbn zeta.
  change (execState (DeferBase_ctor (policyT := policy_of d) f) w)
    with w in Hok.
  set (g := evalState (DeferBase_ctor (policyT := policy_of d) f) w) in *.
  set (es := before ++ Ev_release :: after) in *.
  split.
  - intros Hd.
    destruct (run_events_with_release d g before after w) as [p Hp].
    fold es in Hp.
    rewrite DeferBase_dtor_skips.
    + apply run_events_calls.
    + rewrite Hp. apply release_never_fires; assumption.
  - intros ->.
    rewrite DeferBase_dtor_fires by reflexivity.
    cbn [calls]. now rewrite run_events_calls, run_events_func.
Qed.

(** C4, at the input on which the code breaks it.  [auto a =
    DeferOnExitNoCheck() + f; auto b = std::move(a);] and the end of the
    block: the move constructor ends with [other.release()], which is empty
    for the no-check policy, so [a] stays armed and the action is called
    twice, by [b] and then by [a]. *)
Theorem C4_no_check_move_fires_twice f w :
  execState (a <- operator_plus DeferOnExitNoCheck f ;;
             p <- DeferBase_move a ;;
             leave (declare (fst p) (declare (snd p) []))) w
  = mkWorld (uncaught_exceptions w) (calls w ++ [f; f]).
Proof.
  unfold execState. cbn. rewrite <- app_assoc. reflexivity.
Qed.

(** The other three policies do transfer the obligation: after the same
    program the action has been called once or not at all. *)
Lemma move_fires_at_most_once_deactivatable (d : defer_tag) f w :
  d <> DeferOnExitNoCheck ->
  world_ok w ->
  exists l : list funcT,
    calls (execState (a <- operator_plus d f ;;
                      p <- DeferBase_move a ;;
                      leave (declare (fst p) (declare (snd p) []))) w)
    = calls w ++ l /\ (List.length l <= 1)%nat.
Proof.
  intros Hd Hok.
  rewrite execState_bind.
  assert (Ew : execState (operator_plus d f) w = w)
    by (destruct d; reflexivity).
  rewrite Ew, execState_bind. unfold execState at 2, evalState at 1.
  rewrite DeferBase_move_run. cbn [fst snd].
  rewrite !leave_declare, leave_nil.
  set (a := evalState (operator_plus d f) w).
  set (b := {| base := base a; func := func a |}).
  set (w1 := execState (DeferBase_dtor b) w).
  assert (Ec : uncaught_exceptions w1 = uncaught_exceptions w).
  { unfold w1, execState. rewrite DeferBase_dtor_run. cbn [snd].
    destruct (should_execute (base b) (uncaught_exceptions w)); reflexivity. }
  rewrite DeferBase_dtor_skips.
  - unfold w1, execState. rewrite DeferBase_dtor_run. cbn [snd].
    destruct (should_execute (base b) (uncaught_exceptions w)).
    + exists [func b]. split; [reflexivity | cbn; lia].
    + exists []. split; [now rewrite app_nil_r | cbn; lia].
  - cbn [base]. apply release_never_fires; [assumption|].
    rewrite Ec. exact Hok.
Qed.

End Obligation.

Lemma C3_release_suppresses_witness :
  world_ok
    (execState
       (g <- DeferBase_ctor (policyT := policy_of DeferOnSuccess)
               "x = 1"%string ;;
        run_events ([Ev_throw] ++ Ev_release :: [Ev_catch]) g)
       (mkWorld 0 [])) /\
  calls (execState (lifetime (policyT := policy_of DeferOnSuccess)
                      "x = 1"%string
                      ([Ev_throw] ++ Ev_release :: [Ev_catch]))
           (mkWorld 0 []))
  = [].
Proof.
  assert (Hok : world_ok
    (execState
       (g <- DeferBase_ctor (policyT := policy_of DeferOnSuccess)
               "x = 1"%string ;;
        run_events ([Ev_throw] ++ Ev_release :: [Ev_catch]) g)
       (mkWorld 0 [])))
    by (vm_compute; split; discriminate).
  split; [exact Hok|].
  apply (C3_release_suppresses_unless_no_check DeferOnSuccess "x = 1"%string
           [Ev_throw] [Ev_catch] (mkWorld 0 []) Hok).
  discriminate.
Defined.

(** C3 as it is stated fails for the no-check guard of [DEFER]: released and
    then destroyed, on normal exit and while unwinding, it calls its
    action. *)
Lemma C3_no_check_release_counterexample :
  calls (execState (lifetime (policyT := policy_of DeferOnExitNoCheck)
                      "x = 1"%string [Ev_release]) (mkWorld 0 []))
  = ["x = 1"%string] /\
  calls (execState (lifetime (policyT := policy_of DeferOnExitNoCheck)
                      "x = 1"%string [Ev_release; Ev_throw]) (mkWorld 0 []))
  = ["x = 1"%string] /\
  ~ (forall (d : defer_tag) (w : world string),
       world_ok w ->
       calls (execState (lifetime (policyT := policy_of d)
                           "x = 1"%string [Ev_release]) w)
       = calls w).
Proof.
  split; [reflexivity|]. split; [reflexivity|].
  intros Hall.
  specialize (Hall DeferOnExitNoCheck (mkWorld 0 [])).
  assert (Hok : world_ok (mkWorld (funcT := string) 0 []))
    by (vm_compute; split; discriminate).
  specialize (Hall Hok). discriminate Hall.
Qed.

(** ** What a move hands over *)

Section Transfer.

Context {funcT : Type}.

Implicit Types (f : funcT) (w : world funcT).

(** C10, as the code has it.  The move constructor copies the policy state
    of its argument as it is and then calls [release()] on the argument: the
    new guard has the same state and action whatever the runtime counts at
    the move, so an [OnFail] or [OnSuccess] guard constructed in [w0] and
    moved in [w1] still holds the count of [w0] as baseline, and it answers
    [should_execute] as its source would have.  The argument is left in the
    state [release()] gives it.  For the [OnExit], [OnFail] and [OnSuccess]
    policies that state never fires, and a source on which [release()] had
    been called gives a new guard that never fires; for the no-check policy
    [release()] changes nothing and the new guard of such a source fires. *)
Theorem C10_move_copies_state_then_releases
  (d : defer_tag) (other : DeferBase funcT (policy_of d)) f w0 w1 :
  (base (fst (evalState (DeferBase_move other) w1)) = base other /\
   func (fst (evalState (DeferBase_move other) w1)) = func other /\
   evalState (DeferBase_move other) w1 = evalState (DeferBase_move other) w0)
  /\
  base (snd (evalState (DeferBase_move other) w1)) = release (base other)
  /\
  (OnFailPolicy.exception_count
     (base (fst (evalState
                   (DeferBase_move (evalState (make_defer_fail f) w0)) w1)))
   = uncaught_exceptions w0 /\
   OnSuccessPolicy.exception_count
     (base (fst (evalState
                   (DeferBase_move (evalState (make_defer_success f) w0)) w1)))
   = uncaught_exceptions w0)
  /\
  (forall n : Z,
     should_execute (base (fst (evalState (DeferBase_move other) w1))) n
     = should_execute (base other) n)
  /\
  (d <> DeferOnExitNoCheck ->
   never_fires (base (snd (evalState (DeferBase_move other) w1))) /\
   never_fires
     (base (fst (evalState
                   (DeferBase_move (evalState (DeferBase_release other) w0))
                   w1))))
  /\
  (d = DeferOnExitNoCheck ->
   forall n : Z,
     should_execute
       (base (fst (evalState
                     (DeferBase_move (evalState (DeferBase_release other) w0))
                     w1))) n
     = true).
Proof.
  unfold evalState. rewrite !DeferBase_move_run, !DeferBase_release_run.
  cbn [fst snd base func].
  split; [repeat split|].
  split; [reflexivity|].
  split; [split; reflexivity|].
  split; [reflexivity|].
  split.
  - intros Hd. split; apply release_never_fires; exact Hd.
  - intros Hd n. subst d. reflexivity.
Qed.

End Transfer.

(** C10 as it is stated fails for the no-check guard of [DEFER]: released
    and then moved, it gives a new guard that calls the action when it is
    destroyed, so it is not true that the new guard of a released source
    never fires. *)
Lemma C10_released_no_check_move_counterexample :
  execState
    (g <- operator_plus DeferOnExitNoCheck "x = 1"%string ;;
     g <- DeferBase_release g ;;
     p <- DeferBase_move g ;;
     DeferBase_dtor (fst p))
    (mkWorld 0 [])
  = mkWorld 0 ["x = 1"%string] /\
  ~ never_fires
      (base (fst (evalState
                    (g <- operator_plus DeferOnExitNoCheck "x = 1"%string ;;
                     g <- DeferBase_release g ;;
                     DeferBase_move g)
                    (mkWorld 0 [])))).
Proof.
  split; [reflexivity|].
  intros Hnever. specialize (Hnever 0).
  assert (Hr : uncaught_range 0) by (unfold uncaught_range, INT_MAX; lia).
  specialize (Hnever Hr). discriminate Hnever.
Qed.

(** * Further properties of the guards *)

(** ** What leaving a block calls *)

Section Leaving.

Context {funcT : Type}.

Implicit Types (w : world funcT) (fr : frame (funcT := funcT)).

Lemma leave_cons (o : automatic) fr w :
  execState (leave (o :: fr)) w
  = execState (leave fr) (execState (destroy o) w).
Proof.
  change (leave (o :: fr)) with (bind (destroy o) (fun _ : unit => leave fr)).
  apply execState_bind.
Qed.

Lemma destroy_run (o : automatic) w :
  execState (destroy o) w
  = mkWorld (uncaught_exceptions w)
      (calls w ++ (if fires (uncaught_exceptions w) o then [action o] else [])).
Proof.
  destruct o as [policyT P g]. unfold execState. cbn [destroy fires action].
  rewrite DeferBase_dtor_run. cbn [snd].
  destruct (should_execute (base g) (uncaught_exceptions w)).
  - reflexivity.
  - rewrite app_nil_r. now destruct w.
Qed.

Lemma DeferBase_dtor_uncaught {policyT : Type} `{Policy policyT}
  (g : DeferBase funcT policyT) w :
  uncaught_exceptions (execState (DeferBase_dtor g) w) = uncaught_exceptions w.
Proof.
  unfold execState. rewrite DeferBase_dtor_run. cbn [snd].
  destruct (should_execute (base g) (uncaught_exceptions w)); reflexivity.
Qed.

(** When the actions return: the destructors leave the count alone, so
    every guard of the block decides at the same count. *)
Lemma leave_when_actions_return fr w :
  execState (leave fr) w
  = mkWorld (uncaught_exceptions w)
      (calls w ++ map action (filter (fires (uncaught_exceptions w)) fr)).
Proof.
  revert w. induction fr as [|o fr IH]; intros w.
  - rewrite leave_nil, app_nil_r. now destruct w.
  - rewrite leave_cons, IH, destroy_run.
    cbn [uncaught_exceptions calls filter].
    destruct (fires (uncaught_exceptions w) o); cbn [map].
    + now rewrite <- app_assoc.
    + now rewrite app_nil_r.
Qed.

End Leaving.

(** ** Leaving a block whose actions may throw *)

Section LeavingEx.

Context {funcT : Type}.

Variable behaves : funcT -> behaviour.

Implicit Types (w : world funcT) (fr : frame (funcT := funcT)).

Lemma destroy_ex_run (o : automatic) w :
  runState (destroy_ex behaves o) w
  = if fires (uncaught_exceptions w) o
    then (behaves (action o),
          mkWorld (match behaves (action o) with
                   | Returns => uncaught_exceptions w
                   | Throws => uncaught_exceptions w + 1
                   end)
                  (calls w ++ [action o]))
    else (Returns, w).
Proof.
  destruct o as [policyT P g]. cbn [destroy_ex fires action].
  unfold DeferBase_dtor_ex, builtin_expect.
  rewrite runState_bind.
  change (evalState std_uncaught_exceptions w) with (uncaught_exceptions w).
  change (execState std_uncaught_exceptions w) with w.
  destruct (should_execute (base g) (uncaught_exceptions w)); [|reflexivity].
  unfold call_ex. rewrite runState_bind.
  change (execState (call (func g)) w)
    with (mkWorld (uncaught_exceptions w) (calls w ++ [func g])).
  destruct (behaves (func g)); reflexivity.
Qed.

Lemma leave_ex_cons (u : bool) (o : automatic) fr w :
  runState (leave_ex behaves u (o :: fr)) w
  = match evalState (destroy_ex behaves o) w with
    | Returns =>
        runState (leave_ex behaves u fr) (execState (destroy_ex behaves o) w)
    | Throws =>
        if u
        then (Exit_terminate, execState (destroy_ex behaves o) w)
        else runState (leave_ex behaves true fr)
               (execState (destroy_ex behaves o) w)
    end.
Proof.
  change (leave_ex behaves u (o :: fr))
    with (bind (destroy_ex behaves o)
            (fun b => match b with
                      | Returns => leave_ex behaves u fr
                      | Throws =>
                          if u then ret Exit_terminate
                          else leave_ex behaves true fr
                      end)).
  rewrite runState_bind.
  destruct (evalState (destroy_ex behaves o) w); [reflexivity|].
  destruct u; reflexivity.
Qed.

(** As long as the actions that are called return, the block is left the way
    it was being left, and in the world [leave] computes. *)
Lemma leave_ex_when_actions_return (u : bool) fr w :
  (forall o : automatic,
     In o fr -> fires (uncaught_exceptions w) o = true ->
     behaves (action o) = Returns) ->
  runState (leave_ex behaves u fr) w
  = (if u then Exit_exception else Exit_normal, execState (leave fr) w).
Proof.
  revert w. induction fr as [|o fr IH]; intros w Hret; [reflexivity|].
  rewrite leave_ex_cons, leave_cons. unfold evalState, execState at 1 2.
  rewrite destroy_ex_run, destroy_run.
  assert (Hfr : forall o' : automatic,
            In o' fr -> fires (uncaught_exceptions w) o' = true ->
            behaves (action o') = Returns)
    by (intros o' Hin; apply Hret; now right).
  destruct (fires (uncaught_exceptions w) o) eqn:Ho.
  - rewrite (Hret o (or_introl eq_refl) Ho). cbn [fst snd].
    apply IH. exact Hfr.
  - cbn [fst snd]. rewrite app_nil_r.
    rewrite IH by exact Hfr. now destruct w.
Qed.

(** X1. Leaving a block with any guards in it, of any policies and in any
    states: if the actions that get called return, the block is left the way
    it was being left, the count of uncaught exceptions is unchanged, no
    logged call is dropped, and the calls added are the actions of exactly
    those guards whose [should_execute] holds at that count, last declared
    first. *)
Theorem leave_ex_calls_what_fires (u : bool) fr w :
  (forall o : automatic,
     In o fr -> fires (uncaught_exceptions w) o = true ->
     behaves (action o) = Returns) ->
  runState (leave_ex behaves u fr) w
  = (if u then Exit_exception else Exit_normal,
     mkWorld (uncaught_exceptions w)
       (calls w ++ map action (filter (fires (uncaught_exceptions w)) fr))).
Proof.
  intros Hret. rewrite leave_ex_when_actions_return by exact Hret.
  now rewrite leave_when_actions_return.
Qed.

(** X12. An action that throws fails the block for the guards declared
    before it.  With an [OnFail], an [OnSuccess] and then an [OnExit] guard
    in a block that is left normally, the exception out of the [OnExit]
    action makes the [OnFail] guard call its action and keeps the
    [OnSuccess] guard silent, and the block is left by that exception.  When
    the block is left by an exception already, the exception out of the
    [OnExit] action ends the program, and no other action of the block is
    called. *)
Theorem throwing_action_fails_the_block (undo commit cleanup : funcT) w :
  behaves cleanup = Throws ->
  behaves undo = Returns ->
  runState (gf <- make_defer_fail undo ;;
            gs <- make_defer_success commit ;;
            h <- make_defer_exit cleanup ;;
            leave_ex behaves false
              (declare h (declare gs (declare gf [])))) w
  = (Exit_exception,
     mkWorld (uncaught_exceptions w + 1) (calls w ++ [cleanup; undo])) /\
  runState (gf <- make_defer_fail undo ;;
            gs <- make_defer_success commit ;;
            h <- make_defer_exit cleanup ;;
            throw_exception ;;
            leave_ex behaves true
              (declare h (declare gs (declare gf [])))) w
  = (Exit_terminate,
     mkWorld (uncaught_exceptions w + 2) (calls w ++ [cleanup])).
Proof.
  intros Hc Hu.
  rewrite !runState_bind.
  change (execState (make_defer_fail undo) w) with w.
  change (execState (make_defer_success commit) w) with w.
  change (execState (make_defer_exit cleanup) w) with w.
  change (execState throw_exception w)
    with (mkWorld (uncaught_exceptions w + 1) (calls w)).
  change (evalState (make_defer_fail undo) w)
    with (mkDeferBase (OnFailPolicy.mk (uncaught_exceptions w)) undo).
  change (evalState (make_defer_success commit) w)
    with (mkDeferBase (OnSuccessPolicy.mk (uncaught_exceptions w)) commit).
  change (evalState (make_defer_exit cleanup) w)
    with (mkDeferBase (OnExitPolicy.mk true) cleanup).
  unfold declare.
  assert (Hs : forall n : Z,
            should_execute (OnSuccessPolicy.mk n) (n + 1) = false).
  { intros n. change ((n >=? n + 1) = false).
    rewrite Z.geb_leb. apply Z.leb_gt. lia. }
  assert (Hf : forall n : Z,
            should_execute (OnFailPolicy.mk n) (n + 1) = true).
  { intros n. change ((n <? n + 1) = true). apply Z.ltb_lt. lia. }
  split.
  - rewrite leave_ex_cons. unfold evalState, execState.
    rewrite destroy_ex_run. cbn [fires action base func should_execute
      Policy_OnExit OnExitPolicy.should_execute OnExitPolicy.active].
    rewrite Hc. cbn [fst snd].
    rewrite leave_ex_cons. unfold evalState, execState.
    rewrite destroy_ex_run. cbn [fires base uncaught_exceptions].
    rewrite Hs. cbn [fst snd].
    rewrite leave_ex_cons. unfold evalState, execState.
    rewrite destroy_ex_run. cbn [fires base uncaught_exceptions].
    rewrite Hf. cbn [action func]. rewrite Hu. cbn [fst snd calls].
    rewrite <- app_assoc. reflexivity.
  - rewrite leave_ex_cons. unfold evalState, execState.
    rewrite destroy_ex_run. cbn [fires action base func should_execute
      Policy_OnExit OnExitPolicy.should_execute OnExitPolicy.active].
    rewrite Hc. cbn [fst snd uncaught_exceptions calls].
    f_equal. f_equal. lia.
Qed.

End LeavingEx.

Lemma leave_ex_calls_what_fires_witness :
  let behaves := fun f : string =>
                   if String.eqb f "y = 1"%string then Throws else Returns in
  let w := mkWorld 0 ["start"%string] in
  let fr := declare (evalState (make_defer_success "z = 1"%string) w)
              (declare (evalState (make_defer_fail "y = 1"%string) w)
                 (declare (evalState (make_defer_exit "x = 1"%string) w)
                    [])) in
  (forall o : automatic,
     In o fr -> fires (uncaught_exceptions w) o = true ->
     behaves (action o) = Returns) /\
  runState (leave_ex behaves false fr) w
  = (Exit_normal, mkWorld 0 ["start"%string; "z = 1"%string; "x = 1"%string]).
Proof.
  cbn zeta.
  set (behaves := fun f : string =>
                    if String.eqb f "y = 1"%string then Throws else Returns).
  set (w := mkWorld 0 ["start"%string]).
  set (fr := declare (evalState (make_defer_success "z = 1"%string) w)
               (declare (evalState (make_defer_fail "y = 1"%string) w)
                  (declare (evalState (make_defer_exit "x = 1"%string) w)
                     []))).
  assert (Hret : forall o : automatic,
            In o fr -> fires (uncaught_exceptions w) o = true ->
            behaves (action o) = Returns).
  { intros o [<-|[<-|[<-|[]]]] Hf; try reflexivity. discriminate Hf. }
  split; [exact Hret|].
  exact (leave_ex_calls_what_fires behaves false fr w Hret).
Defined.

Lemma throwing_action_fails_the_block_witness :
  let behaves := fun f : string =>
                   if String.eqb f "close"%string then Throws else Returns in
  behaves "close"%string = Throws /\
  behaves "undo"%string = Returns /\
  runState (gf <- make_defer_fail "undo"%string ;;
            gs <- make_defer_success "commit"%string ;;
            h <- make_defer_exit "close"%string ;;
            leave_ex behaves false
              (declare h (declare gs (declare gf [])))) (mkWorld 0 [])
  = (Exit_exception, mkWorld 1 ["close"%string; "undo"%string]).
Proof.
  cbn zeta.
  split; [reflexivity|]. split; [reflexivity|].
  exact (proj1 (throwing_action_fails_the_block
                  (fun f : string =>
                     if String.eqb f "close"%string then Throws else Returns)
                  "undo"%string "commit"%string "close"%string
                  (mkWorld 0 []) eq_refl eq_refl)).
Defined.

(** ** Moves *)

Section Moves.

Context {funcT : Type}.

Implicit Types (f : funcT) (w : world funcT).

Lemma move_chain_succ (d : defer_tag) (n : nat)
  (g : DeferBase funcT (policy_of d)) (fr : frame) w :
  runState (move_chain (S n) g fr) w
  = runState (move_chain n {| base := base g; func := func g |}
                (declare {| base := release (base g); func := func g |} fr)) w.
Proof.
  change (move_chain (S n) g fr)
    with (bind (DeferBase_move g)
            (fun p => move_chain n (fst p) (declare (snd p) fr))).
  rewrite runState_bind. unfold evalState, execState.
  rewrite DeferBase_move_run. reflexivity.
Qed.

Lemma DeferBase_dtor_eta {policyT : Type} `{Policy policyT}
  (g : DeferBase funcT policyT) w :
  execState (DeferBase_dtor {| base := base g; func := func g |}) w
  = execState (DeferBase_dtor g) w.
Proof. unfold execState. now rewrite !DeferBase_dtor_run. Qed.

Lemma released_dtor_skips (d : defer_tag) (p : policy_of d) f w :
  d <> DeferOnExitNoCheck ->
  world_ok w ->
  execState (DeferBase_dtor {| base := release p; func := f |}) w = w.
Proof.
  intros Hd Hok. apply DeferBase_dtor_skips.
  cbn [base]. now apply release_never_fires.
Qed.

Lemma move_chain_world (d : defer_tag) (n : nat)
  (g : DeferBase funcT (policy_of d)) (fr : frame) w :
  execState (move_chain n g fr) w = w.
Proof.
  revert g fr. induction n as [|n IH]; intros g fr; [reflexivity|].
  unfold execState. rewrite move_chain_succ. apply IH.
Qed.

Lemma move_chain_leave (d : defer_tag) (n : nat)
  (g : DeferBase funcT (policy_of d)) (fr : frame) w :
  d <> DeferOnExitNoCheck ->
  world_ok w ->
  execState (leave (declare (fst (evalState (move_chain n g fr) w))
                            (snd (evalState (move_chain n g fr) w)))) w
  = execState (leave fr) (execState (DeferBase_dtor g) w).
Proof.
  intros Hd Hok. revert g fr. induction n as [|n IH]; intros g fr.
  - cbn [move_chain]. apply leave_declare.
  - unfold evalState. rewrite move_chain_succ.
    fold (evalState (move_chain n {| base := base g; func := func g |}
            (declare {| base := release (base g); func := func g |} fr)) w).
    rewrite IH, leave_declare, DeferBase_dtor_eta.
    rewrite released_dtor_skips; [reflexivity | assumption |].
    unfold world_ok. rewrite DeferBase_dtor_uncaught. exact Hok.
Qed.

(** X2. For the [OnExit], [OnFail] and [OnSuccess] policies a guard handed on
    by any number of moves keeps one single obligation: when the block that
    holds the last guard and all the moved-from ones is left, the calls are
    those the original guard alone would have made. *)
Theorem move_chain_fires_like_original (d : defer_tag) (n : nat)
  (g : DeferBase funcT (policy_of d)) w :
  d <> DeferOnExitNoCheck ->
  world_ok w ->
  execState (p <- move_chain n g [] ;; leave (declare (fst p) (snd p))) w
  = execState (DeferBase_dtor g) w.
Proof.
  intros Hd Hok. rewrite execState_bind, move_chain_world.
  rewrite move_chain_leave by assumption. apply leave_nil.
Qed.

(** Any event other than a throw or a catch leaves the guard in a state that
    some [release()] produced, and it stays there. *)
Lemma run_events_disarmed (d : defer_tag) (es : list event)
  (g : DeferBase funcT (policy_of d)) w :
  forallb world_event es = false ->
  exists p : policy_of d,
    base (evalState (run_events es g) w) = release p.
Proof.
  revert g w. induction es as [|e es IH]; intros g w Hes; [discriminate|].
  unfold evalState. rewrite run_events_cons.
  fold (evalState (run_events es (evalState (run_event e g) w))
                  (execState (run_event e g) w)).
  cbn [forallb] in Hes.
  destruct (world_event e) eqn:He.
  - apply IH. exact Hes.
  - exists (base g).
    assert (Hb : base (evalState (run_event e g) w) = release (base g))
      by (destruct e; try discriminate; reflexivity).
    rewrite run_events_released; [exact Hb|].
    rewrite Hb. apply release_release.
Qed.

(** X3. A guard of the [OnExit], [OnFail] or [OnSuccess] policy that has been
    the source of a move never calls its action, whatever is thrown, caught,
    released or moved before and after. *)
Theorem moved_from_never_fires
  (d : defer_tag) f (before after : list event) w :
  d <> DeferOnExitNoCheck ->
  world_ok
    (execState
       (g <- DeferBase_ctor (policyT := policy_of d) f ;;
        run_events (before ++ Ev_moved_from :: after) g) w) ->
  calls (execState (lifetime (policyT := policy_of d) f
                      (before ++ Ev_moved_from :: after)) w)
  = calls w.
Proof.
  intros Hd Hok. rewrite execState_bind in Hok.
  change (execState (DeferBase_ctor (policyT := policy_of d) f) w)
    with w in Hok.
  rewrite lifetime_run. cbn zeta.
  set (g := evalState (DeferBase_ctor (policyT := policy_of d) f) w) in *.
  destruct (run_events_disarmed d (before ++ Ev_moved_from :: after) g w)
    as [p Hp].
  { rewrite forallb_app. cbn. apply andb_false_r. }
  rewrite DeferBase_dtor_skips.
  - apply run_events_calls.
  - rewrite Hp. now apply release_never_fires.
Qed.

End Moves.

Lemma move_chain_fires_like_original_witness :
  DeferOnSuccess <> DeferOnExitNoCheck /\
  world_ok (mkWorld 0 ["open"%string]) /\
  execState
    (p <- move_chain 3
            (evalState (make_defer_success "close"%string)
               (mkWorld 0 ["open"%string])) [] ;;
     leave (declare (fst p) (snd p)))
    (mkWorld 0 ["open"%string])
  = mkWorld 0 ["open"%string; "close"%string].
Proof.
  assert (Hd : DeferOnSuccess <> DeferOnExitNoCheck) by discriminate.
  assert (Hok : world_ok (mkWorld 0 ["open"%string]))
    by (vm_compute; split; discriminate).
  split; [exact Hd|]. split; [exact Hok|].
  exact (move_chain_fires_like_original (d := DeferOnSuccess) 3
           (evalState (make_defer_success "close"%string)
              (mkWorld 0 ["open"%string])) Hd Hok).
Defined.

Lemma moved_from_never_fires_witness :
  DeferOnExit <> DeferOnExitNoCheck /\
  world_ok
    (execState
       (g <- DeferBase_ctor (policyT := policy_of DeferOnExit)
               "x = 1"%string ;;
        run_events ([Ev_throw] ++ Ev_moved_from :: [Ev_catch]) g)
       (mkWorld 0 [])) /\
  calls (execState (lifetime (policyT := policy_of DeferOnExit)
                      "x = 1"%string
                      ([Ev_throw] ++ Ev_moved_from :: [Ev_catch]))
           (mkWorld 0 []))
  = [].
Proof.
  assert (Hd : DeferOnExit <> DeferOnExitNoCheck) by discriminate.
  assert (Hok : world_ok
    (execState
       (g <- DeferBase_ctor (policyT := policy_of DeferOnExit)
               "x = 1"%string ;;
        run_events ([Ev_throw] ++ Ev_moved_from :: [Ev_catch]) g)
       (mkWorld 0 [])))
    by (vm_compute; split; discriminate).
  split; [exact Hd|]. split; [exact Hok|].
  exact (moved_from_never_fires (d := DeferOnExit) "x = 1"%string
           [Ev_throw] [Ev_catch] (mkWorld 0 []) Hd Hok).
Defined.

(** ** Whole lifetimes *)

Section Lifetimes.

Context {funcT : Type}.

Implicit Types (f : funcT) (w : world funcT) (es : list event).

Lemma run_events_uncaught {policyT : Type} `{Policy policyT}
  es (g : DeferBase funcT policyT) w :
  uncaught_exceptions (execState (run_events es g) w)
  = uncaught_exceptions w + net_throws es.
Proof.
  revert g w. induction es as [|e es IH]; intros g w.
  - cbn. lia.
  - unfold execState. rewrite run_events_cons.
    fold (execState (run_events es (evalState (run_event e g) w))
                    (execState (run_event e g) w)).
    rewrite IH.
    destruct e; cbn [net_throws];
      [ change (uncaught_exceptions (execState (run_event Ev_release g) w))
          with (uncaught_exceptions w)
      | change (uncaught_exceptions (execState (run_event Ev_moved_from g) w))
          with (uncaught_exceptions w)
      | change (uncaught_exceptions (execState (run_event Ev_throw g) w))
          with (uncaught_exceptions w + 1)
      | change (uncaught_exceptions (execState (run_event Ev_catch g) w))
          with (uncaught_exceptions w - 1) ];
      lia.
Qed.


(** X5. With nothing but throws and catches between construction and
    destruction, an [OnFail] guard calls its action exactly when more
    exceptions were thrown than caught, and an [OnSuccess] guard exactly when
    not: an exception thrown and caught inside the block does not count as a
    failure of the block. *)
Theorem lifetime_fail_success_by_net_throws f es w :
  forallb world_event es = true ->
  calls (execState (lifetime (policyT := OnFailPolicy.t) f es) w)
  = calls w ++ (if 0 <? net_throws es then [f] else []) /\
  calls (execState (lifetime (policyT := OnSuccessPolicy.t) f es) w)
  = calls w ++ (if net_throws es <=? 0 then [f] else []).
Proof.
  intros Hes. rewrite !lifetime_run. cbn zeta.
  rewrite !(run_events_world_only _ _ _ Hes).
  unfold execState at 1 3. rewrite !DeferBase_dtor_run. cbn [snd].
  rewrite !run_events_uncaught. cbn [should_execute Policy_OnFail
    Policy_OnSuccess base evalState fst].
  unfold evalState. rewrite !DeferBase_ctor_run. cbn [fst base func].
  unfold OnFailPolicy.should_execute, OnSuccessPolicy.should_execute.
  cbn [OnFailPolicy.exception_count OnSuccessPolicy.exception_count
       policy_ctor Policy_OnFail Policy_OnSuccess OnFailPolicy.ctor
       OnSuccessPolicy.ctor].
  rewrite Z.geb_leb.
  split.
  - destruct (Z.ltb_spec (uncaught_exceptions w)
                (uncaught_exceptions w + net_throws es));
      destruct (Z.ltb_spec 0 (net_throws es)); try lia; cbn [calls].
    + now rewrite run_events_calls.
    + now rewrite run_events_calls, app_nil_r.
  - destruct (Z.leb_spec (uncaught_exceptions w + net_throws es)
                (uncaught_exceptions w));
      destruct (Z.leb_spec (net_throws es) 0); try lia; cbn [calls].
    + now rewrite run_events_calls.
    + now rewrite run_events_calls, app_nil_r.
Qed.

(** X6. An [OnExit] guard calls its action at destruction if and only if it
    was never released and never moved from; the throws and catches of its
    lifetime play no part. *)
Theorem lifetime_exit_iff_untouched f es w :
  calls (execState (lifetime (policyT := OnExitPolicy.t) f es) w)
  = calls w ++ (if forallb world_event es then [f] else []).
Proof.
  rewrite lifetime_run. cbn zeta.
  destruct (forallb world_event es) eqn:Hes.
  - rewrite (run_events_world_only _ _ _ Hes).
    rewrite DeferBase_dtor_fires by reflexivity.
    cbn [calls]. now rewrite run_events_calls.
  - destruct (run_events_disarmed DeferOnExit es
                (evalState (DeferBase_ctor (policyT := OnExitPolicy.t) f) w)
                w Hes) as [p Hp].
    rewrite DeferBase_dtor_skips.
    + now rewrite run_events_calls, app_nil_r.
    + cbn in Hp |- *. rewrite Hp. reflexivity.
Qed.

(** X7. The no-check guard of [DEFER] that is not moved from calls its
    action exactly once at destruction, whatever else happened to it: calls
    of [release()], throws and catches make no difference. *)
Theorem lifetime_no_check_fires_unless_moved f es w :
  forallb not_moved_from es = true ->
  calls (execState (lifetime (policyT := OnExitNoCheckPolicy.t) f es) w)
  = calls w ++ [f].
Proof.
  intros _. rewrite lifetime_run. cbn zeta.
  rewrite DeferBase_dtor_fires by reflexivity.
  cbn [calls]. now rewrite run_events_calls, run_events_func.
Qed.

End Lifetimes.

Lemma lifetime_fail_success_by_net_throws_witness :
  forallb world_event [Ev_throw; Ev_catch; Ev_throw; Ev_catch] = true /\
  calls (execState (lifetime (policyT := OnFailPolicy.t) "undo"%string
                      [Ev_throw; Ev_catch; Ev_throw; Ev_catch])
           (mkWorld 1 []))
  = [] /\
  calls (execState (lifetime (policyT := OnSuccessPolicy.t) "commit"%string
                      [Ev_throw; Ev_catch; Ev_throw; Ev_catch])
           (mkWorld 1 []))
  = ["commit"%string].
Proof.
  split; [reflexivity|]. split.
  - exact (proj1 (lifetime_fail_success_by_net_throws "undo"%string
                    [Ev_throw; Ev_catch; Ev_throw; Ev_catch] (mkWorld 1 [])
                    eq_refl)).
  - exact (proj2 (lifetime_fail_success_by_net_throws "commit"%string
                    [Ev_throw; Ev_catch; Ev_throw; Ev_catch] (mkWorld 1 [])
                    eq_refl)).
Defined.

(** ** The static constants of the policies *)

Section Constants.

Context {funcT : Type}.

Implicit Types (f : funcT) (w : world funcT).

(** X8. The hint [expect_execute] that each policy hands to
    [__builtin_expect] is the decision itself on the plain path: a guard made
    by [operator+] in a block that is left normally, with nothing thrown and
    nothing released, calls its action exactly when [expect_execute] is
    true. *)
Theorem expect_execute_is_normal_exit (d : defer_tag) f w :
  execState (g <- operator_plus d f ;; leave (declare g [])) w
  = (if expect_execute (policyT := policy_of d)
     then mkWorld (uncaught_exceptions w) (calls w ++ [f])
     else w).
Proof.
  rewrite execState_bind, leave_declare, leave_nil.
  destruct d; unfold execState; rewrite DeferBase_dtor_run; cbn [snd].
  - reflexivity.
  - reflexivity.
  - change (should_execute _ _)
      with (uncaught_exceptions w <? uncaught_exceptions w).
    now rewrite Z.ltb_irrefl.
  - change (should_execute _ _)
      with (uncaught_exceptions w >=? uncaught_exceptions w).
    now rewrite Z.geb_leb, Z.leb_refl.
Qed.

(** X9. The policies with [require_noexcept] false decide without looking at
    the count of uncaught exceptions; the policies with [require_noexcept]
    true are the ones that look at it: one more uncaught exception than at
    construction turns the decision of a fresh guard around. *)
Theorem require_noexcept_iff_count_matters (d : defer_tag) (p : policy_of d) :
  (require_noexcept (policyT := policy_of d) = false ->
   forall n m : Z, should_execute p n = should_execute p m) /\
  (require_noexcept (policyT := policy_of d) = true ->
   forall n : Z,
     should_execute (policy_ctor (policyT := policy_of d) n) (n + 1)
     = negb (should_execute (policy_ctor (policyT := policy_of d) n) n)).
Proof.
  destruct d; split; intros Hr; try discriminate Hr; intros n.
  - reflexivity.
  - reflexivity.
  - change ((n <? n + 1) = negb (n <? n)).
    rewrite Z.ltb_irrefl. apply Z.ltb_lt. lia.
  - change ((n >=? n + 1) = negb (n >=? n)).
    rewrite !Z.geb_leb, Z.leb_refl. apply Z.leb_gt. lia.
Qed.

End Constants.

(** ** No way back *)

Section Irreversible.

Context {funcT : Type}.

Lemma run_event_never_fires (d : defer_tag) (e : event)
  (g : DeferBase funcT (policy_of d)) (w : world funcT) :
  never_fires (base g) ->
  never_fires (base (evalState (run_event e g) w)).
Proof.
  intros Hg.
  assert (Hd : d <> DeferOnExitNoCheck).
  { intros ->. specialize (Hg 0). cbn in Hg.
    assert (Hr : uncaught_range 0) by (unfold uncaught_range, INT_MAX; lia).
    specialize (Hg Hr). discriminate Hg. }
  destruct e; try exact Hg.
  - change (never_fires (release (base g))). now apply release_never_fires.
  - change (never_fires (release (base g))). now apply release_never_fires.
Qed.

(** X10. Nothing re-arms a guard: once its state answers [should_execute]
    with false for every count, it does so after any further releases, moves,
    throws and catches. *)
Theorem disarmed_stays_disarmed (d : defer_tag) (es : list event)
  (g : DeferBase funcT (policy_of d)) (w : world funcT) :
  never_fires (base g) ->
  never_fires (base (evalState (run_events es g) w)).
Proof.
  revert g w. induction es as [|e es IH]; intros g w Hg; [exact Hg|].
  unfold evalState. rewrite run_events_cons.
  fold (evalState (run_events es (evalState (run_event e g) w))
                  (execState (run_event e g) w)).
  apply IH. now apply run_event_never_fires.
Qed.

End Irreversible.

Lemma disarmed_stays_disarmed_witness :
  never_fires (base (mkDeferBase (OnSuccessPolicy.mk (-1)) "commit"%string))
  /\
  never_fires
    (base (evalState
             (run_events [Ev_throw; Ev_moved_from; Ev_catch; Ev_release]
                (mkDeferBase (OnSuccessPolicy.mk (-1)) "commit"%string))
             (mkWorld 0 []))).
Proof.
  assert (Hg : never_fires
            (base (mkDeferBase (OnSuccessPolicy.mk (-1)) "commit"%string))).
  { intros n [Hlo _]. cbn. unfold OnSuccessPolicy.should_execute. cbn.
    rewrite Z.geb_leb. apply Z.leb_gt. lia. }
  split; [exact Hg|].
  exact (@disarmed_stays_disarmed string DeferOnSuccess
           [Ev_throw; Ev_moved_from; Ev_catch; Ev_release]
           (mkDeferBase (OnSuccessPolicy.mk (-1)) "commit"%string)
           (mkWorld 0 []) Hg).
Defined.

Lemma lifetime_no_check_fires_unless_moved_witness :
  forallb not_moved_from [Ev_release; Ev_throw; Ev_release] = true /\
  calls (execState (lifetime (policyT := OnExitNoCheckPolicy.t) "x = 1"%string
                      [Ev_release; Ev_throw; Ev_release]) (mkWorld 0 []))
  = ["x = 1"%string].
Proof.
  split; [reflexivity|].
  exact (lifetime_no_check_fires_unless_moved "x = 1"%string
           [Ev_release; Ev_throw; Ev_release] (mkWorld 0 []) eq_refl).
Defined.
